(** * MovieService: the in-memory movie CRUD handlers of [main.py]

    [main.py] holds two revisions of the service: the first one, and the
    second one pasted into the body of the first [delete_movie] (lines 105
    to 229).  The second revision is a complete program and the one whose
    models carry the [Field] constraints on [title], [playtime] and [genre];
    its definitions are the ones embedded here.

    Python values are modelled as follows:
    - [int] is unbounded, so it is [Z];
    - [str] is a sequence of Unicode code points, [list N];
    - [str.lower] depends on the Unicode case tables, which are not part of
      the repository: it is a parameter of the development ([lower]);
    - the two module globals [movie_db] and [movie_id_counter] form the
      [state] record, threaded explicitly through every handler;
    - [raise] is modelled by the [Raise] outcome of [result];
    - a request reaches the service with its body and parameters already
      of the declared types; what FastAPI then checks are the [Field] and
      [Path] constraints. *)

From stdpp Require Import base decidable option numbers list sorting strings.

Local Open Scope Z_scope.

(** ** Strings *)

Abbreviation str := (list N).

(** Truth value of a Python [str]: the empty string is falsy. *)
Definition str_bool (s : str) : bool :=
  match s with
  | [] => false
  | _ :: _ => true
  end.

(** Truth value of an [Optional[str]]: [None] and [""] are falsy. *)
Definition opt_bool (o : option str) : bool :=
  match o with
  | None => false
  | Some s => str_bool s
  end.

Fixpoint startswith (sub s : str) : bool :=
  match sub, s with
  | [], _ => true
  | _ :: _, [] => false
  | c :: sub', d :: s' => bool_decide (c = d) && startswith sub' s'
  end.

(** [sub in s] on strings: [sub] occurs in [s] as a contiguous run. *)
Fixpoint str_in (sub s : str) : bool :=
  startswith sub s ||
  match s with
  | [] => false
  | _ :: s' => str_in sub s'
  end.

(** ** Pydantic models *)

Module Movie.
Record t := mk { title : str; playtime : Z; genre : str }.

(** [title: min_length=1], [playtime: gt=0], [genre: min_length=2]. *)
Definition validate (m : t) : bool :=
  bool_decide (1 ≤ length (title m))%nat
  && bool_decide (0 < playtime m)
  && bool_decide (2 ≤ length (genre m))%nat.
End Movie.

Module MovieUpdate.
Record t := mk { title : str; playtime : Z; genre : str }.

Definition validate (m : t) : bool :=
  bool_decide (1 ≤ length (title m))%nat
  && bool_decide (0 < playtime m)
  && bool_decide (2 ≤ length (genre m))%nat.
End MovieUpdate.

Module MovieDB.
Record t := mk { id : Z; title : str; playtime : Z; genre : str }.

(** [BaseModel.__eq__] compares the field dictionaries. *)
#[global] Instance eq_dec : EqDecision t.
Proof. solve_decision. Defined.
End MovieDB.

(** [Path(..., gt=0)] on the [movie_id] path parameter. *)
Definition Path_gt0 (movie_id : Z) : bool := bool_decide (0 < movie_id).

(** ** The store *)

Record state := mkState {
  movie_db : list MovieDB.t;
  movie_id_counter : Z
}.

Definition init : state := {| movie_db := []; movie_id_counter := 0 |}.

Inductive exn :=
| HTTP_404_NOT_FOUND
| ValueError.

Inductive result (A : Type) :=
| Return (a : A)
| Raise (e : exn).
Arguments Return {A} a.
Arguments Raise {A} e.

(** [list.remove(x)]: drops the first element equal to [x]; [ValueError]
    when there is none. *)
Definition list_remove (x : MovieDB.t) (l : list MovieDB.t)
  : result (list MovieDB.t) :=
  match list_find (λ y, y = x) l with
  | Some (i, _) => Return (delete i l)
  | None => Raise ValueError
  end.

(** [for i, movie in enumerate(movie_db): if movie.id == movie_id: ...] *)
Definition scan (movie_id : Z) (db : list MovieDB.t) : option (nat * MovieDB.t) :=
  list_find (λ movie, MovieDB.id movie = movie_id) db.

(** ** Handlers *)

Definition create_movie (movie : Movie.t) (s : state) : state * MovieDB.t :=
  let counter := movie_id_counter s + 1 in
  let new_movie :=
    MovieDB.mk counter (Movie.title movie) (Movie.playtime movie)
               (Movie.genre movie) in
  ({| movie_db := movie_db s ++ [new_movie]; movie_id_counter := counter |},
   new_movie).

Definition get_movie_by_id (movie_id : Z) (s : state) : result MovieDB.t :=
  match scan movie_id (movie_db s) with
  | Some (_, movie) => Return movie
  | None => Raise HTTP_404_NOT_FOUND
  end.

Definition update_movie (movie_update : MovieUpdate.t) (movie_id : Z)
    (s : state) : state * result MovieDB.t :=
  match scan movie_id (movie_db s) with
  | Some (i, _) =>
      let updated_movie :=
        MovieDB.mk movie_id (MovieUpdate.title movie_update)
                   (MovieUpdate.playtime movie_update)
                   (MovieUpdate.genre movie_update) in
      ({| movie_db := <[i := updated_movie]> (movie_db s);
          movie_id_counter := movie_id_counter s |},
       Return updated_movie)
  | None => (s, Raise HTTP_404_NOT_FOUND)
  end.

Definition delete_movie (movie_id : Z) (s : state) : state * result unit :=
  let movie_to_delete := snd <$> scan movie_id (movie_db s) in
  match movie_to_delete with
  | Some movie =>
      match list_remove movie (movie_db s) with
      | Return db' =>
          ({| movie_db := db'; movie_id_counter := movie_id_counter s |},
           Return ())
      | Raise e => (s, Raise e)
      end
  | None => (s, Raise HTTP_404_NOT_FOUND)
  end.

(** ** The routes

    FastAPI validates the declared parameters before it calls a handler and
    answers 422 when one is rejected; an [HTTPException] becomes a response
    with its status code, any other exception a 500. *)

Inductive request :=
| POST_movies (movie : Movie.t)
| GET_movies (title genre : option str)
| GET_movie (movie_id : Z)
| PUT_movie (movie_id : Z) (movie_update : MovieUpdate.t)
| DELETE_movie (movie_id : Z).

Inductive response :=
| Created (m : MovieDB.t)            (* 201 *)
| OkMovie (m : MovieDB.t)            (* 200 *)
| OkMovies (l : list MovieDB.t)      (* 200 *)
| NoContent                          (* 204 *)
| NotFoundError                      (* 404 *)
| ValidationError                    (* 422 *)
| ServerError.                       (* 500 *)

Definition exn_response (e : exn) : response :=
  match e with
  | HTTP_404_NOT_FOUND => NotFoundError
  | ValueError => ServerError
  end.

(** ** The first revision

    Lines 1 to 104 of [main.py] are the earlier revision of the service.  Its
    handlers [create_movie], [get_movies], [get_movie_by_id] and
    [update_movie] have the bodies of the later ones (the fields are passed
    one by one instead of through [dict()], and [get_movies] prints nothing);
    what differs is the models: [Movie] declares no constraint and
    [MovieUpdate] constrains [playtime] only.  Its [delete_movie] is cut off
    by the paste and has no model. *)

Module Rev1.
Definition Movie_validate (m : Movie.t) : bool := true.

(** [playtime: gt=0]. *)
Definition MovieUpdate_validate (m : MovieUpdate.t) : bool :=
  bool_decide (0 < MovieUpdate.playtime m).

Definition handle_POST (movie : Movie.t) (s : state) : state * response :=
  if Movie_validate movie then
    let '(s', new_movie) := create_movie movie s in (s', Created new_movie)
  else (s, ValidationError).

Definition handle_PUT (movie_id : Z) (movie_update : MovieUpdate.t)
    (s : state) : state * response :=
  if MovieUpdate_validate movie_update && Path_gt0 movie_id then
    match update_movie movie_update movie_id s with
    | (s', Return updated_movie) => (s', OkMovie updated_movie)
    | (s', Raise e) => (s', exn_response e)
    end
  else (s, ValidationError).
End Rev1.

(** ASCII case folding: what [str.lower] does on strings of ASCII code
    points.  It instantiates [lower] when the handlers are run on concrete
    ASCII data. *)
Definition lower_ascii (s : str) : str :=
  (λ c : N, if bool_decide (65 ≤ c ≤ 90)%N then (c + 32)%N else c) <$> s.

(** The code points of an ASCII literal. *)
Definition u (s : string) : str :=
  Ascii.N_of_ascii <$> String.list_ascii_of_string s.

(** The two films of the specification's worked example. *)
Definition dune : Movie.t := Movie.mk (u "Dune") 155 (u "Sci-Fi").
Definition up : Movie.t := Movie.mk (u "Up") 96 (u "Animation").

Definition dune_1 : MovieDB.t := MovieDB.mk 1 (u "Dune") 155 (u "Sci-Fi").
Definition up_2 : MovieDB.t := MovieDB.mk 2 (u "Up") 96 (u "Animation").

Definition two_films : state :=
  {| movie_db := [dune_1; up_2]; movie_id_counter := 2 |}.

Definition her : MovieUpdate.t := MovieUpdate.mk (u "Her") 126 (u "Drama").
Definition her_1 : MovieDB.t := MovieDB.mk 1 (u "Her") 126 (u "Drama").

Section Service.

(** [str.lower]. *)
Variable lower : str → str.

(** The [user_agent] and [session_id] parameters are only printed; they do
    not reach the result and are left out. *)
Definition get_movies (title genre : option str) (s : state)
  : list MovieDB.t :=
  let result := movie_db s in
  if opt_bool title || opt_bool genre then
    let filtered_movies := result in
    let filtered_movies :=
      match title with
      | Some title =>
          if str_bool title then
            List.filter
              (λ m, str_in (lower title) (lower (MovieDB.title m)))
              filtered_movies
          else filtered_movies
      | None => filtered_movies
      end in
    let filtered_movies :=
      match genre with
      | Some genre =>
          if str_bool genre then
            List.filter
              (λ m, str_in (lower genre) (lower (MovieDB.genre m)))
              filtered_movies
          else filtered_movies
      | None => filtered_movies
      end in
    match filtered_movies with
    | _ :: _ => filtered_movies
    | [] => result
    end
  else result.

(** The handler of each route, behind the validation of its parameters. *)
Definition handle (r : request) (s : state) : state * response :=
  match r with
  | POST_movies movie =>
      if Movie.validate movie then
        let '(s', new_movie) := create_movie movie s in (s', Created new_movie)
      else (s, ValidationError)
  | GET_movies title genre => (s, OkMovies (get_movies title genre s))
  | GET_movie movie_id =>
      if Path_gt0 movie_id then
        match get_movie_by_id movie_id s with
        | Return movie => (s, OkMovie movie)
        | Raise e => (s, exn_response e)
        end
      else (s, ValidationError)
  | PUT_movie movie_id movie_update =>
      if MovieUpdate.validate movie_update && Path_gt0 movie_id then
        match update_movie movie_update movie_id s with
        | (s', Return updated_movie) => (s', OkMovie updated_movie)
        | (s', Raise e) => (s', exn_response e)
        end
      else (s, ValidationError)
  | DELETE_movie movie_id =>
      if Path_gt0 movie_id then
        match delete_movie movie_id s with
        | (s', Return _) => (s', NoContent)
        | (s', Raise e) => (s', exn_response e)
        end
      else (s, ValidationError)
  end.

(** The store after a sequence of requests, and the responses given. *)
Fixpoint exec (rs : list request) (s : state) : state :=
  match rs with
  | [] => s
  | r :: rs' => exec rs' (handle r s).1
  end.

Fixpoint trace (rs : list request) (s : state) : list response :=
  match rs with
  | [] => []
  | r :: rs' => (handle r s).2 :: trace rs' (handle r s).1
  end.

Definition reachable (s : state) : Prop := ∃ rs, exec rs init = s.

(** The records returned by the successful creates of a trace. *)
Definition created (tr : list response) : list MovieDB.t :=
  omap (λ r, match r with Created m => Some m | _ => None end) tr.

Definition ids (db : list MovieDB.t) : list Z := MovieDB.id <$> db.

(** ** The filter as the specification words it *)

(** [q] is a case-insensitive substring of [field]. *)
Definition ci_substr (q field : str) : bool :=
  str_in (lower q) (lower field).

(** The record matches every filter that is given. *)
Definition matches (title genre : option str) (m : MovieDB.t) : bool :=
  match title with
  | Some q => ci_substr q (MovieDB.title m)
  | None => true
  end &&
  match genre with
  | Some q => ci_substr q (MovieDB.genre m)
  | None => true
  end.

(** The test [get_movies] applies for one query parameter: a falsy
    parameter filters nothing out. *)
Definition applied (q : option str) (field : str) : bool :=
  match q with
  | Some q => if str_bool q then str_in (lower q) (lower field) else true
  | None => true
  end.

(** The successful deletes of a trace. *)
Definition deleted (tr : list response) : list unit :=
  omap (λ r, match r with NoContent => Some () | _ => None end) tr.

(** The constraints that [MovieDB] inherits from [Movie]. *)
Definition well_formed (m : MovieDB.t) : Prop :=
  MovieDB.title m ≠ [] ∧ 0 < MovieDB.playtime m
  ∧ (2 ≤ length (MovieDB.genre m))%nat.

(** Invariant of the store: the ids of the collection, read in collection
    order, are strictly increasing and lie between 1 and the counter. *)
Definition store_inv (s : state) : Prop :=
  StronglySorted Z.lt (ids (movie_db s))
  ∧ Forall (λ i, 0 < i ≤ movie_id_counter s) (ids (movie_db s))
  ∧ 0 ≤ movie_id_counter s.

(** ** Strings *)

Lemma startswith_spec sub s :
  startswith sub s = true ↔ ∃ post, s = sub ++ post.
Proof.
  revert s. induction sub as [|c sub IH]; intros [|d s]; simpl.
  - split; [by exists []|done].
  - split; [by exists (d :: s)|done].
  - split; [done|by intros [post ?]].
  - rewrite andb_true_iff, bool_decide_eq_true, IH. split.
    + intros [-> [post ->]]. by exists post.
    + intros [post [= -> ->]]. eauto.
Qed.

Lemma str_in_spec sub s :
  str_in sub s = true ↔ ∃ pre post, s = pre ++ sub ++ post.
Proof.
  induction s as [|d s IH]; simpl; rewrite orb_true_iff, startswith_spec.
  - split.
    + intros [[post ->]|?]; [by exists [], post|done].
    + intros (pre & post & H). left.
      destruct pre; simpl in H; [by exists post|done].
  - rewrite IH. split.
    + intros [[post ->]|(pre & post & ->)]; [by exists [], post|].
      by exists (d :: pre), post.
    + intros ([|e pre] & post & H); simpl in H.
      * left. by exists post.
      * right. injection H as -> ->. by exists pre, post.
Qed.

Lemma str_in_nil s : str_in [] s = true.
Proof. by destruct s. Qed.

(** ** The linear scans *)

Lemma scan_Some mid db i m :
  scan mid db = Some (i, m) ↔
  db !! i = Some m ∧ MovieDB.id m = mid
  ∧ ∀ j y, db !! j = Some y → (j < i)%nat → MovieDB.id y ≠ mid.
Proof. exact (list_find_Some (λ movie, MovieDB.id movie = mid) db i m). Qed.

Lemma scan_None mid db :
  scan mid db = None ↔ ∀ m, m ∈ db → MovieDB.id m ≠ mid.
Proof. unfold scan. by rewrite list_find_None, Forall_forall. Qed.

Lemma scan_is_Some mid db m :
  m ∈ db → MovieDB.id m = mid → ∃ i m', scan mid db = Some (i, m').
Proof.
  intros Hin Hid.
  destruct (scan mid db) as [[i m']|] eqn:E; [eauto|].
  rewrite scan_None in E. by destruct (E m Hin).
Qed.

(** [list.remove] drops the very record the scan stopped at: no earlier
    record can be equal to it, since it would carry the same id. *)
Lemma list_remove_scan mid db i m :
  scan mid db = Some (i, m) → list_remove m db = Return (delete i db).
Proof.
  intros H. apply scan_Some in H as (Hi & Hid & Hmin). unfold list_remove.
  destruct (list_find (λ y, y = m) db) as [[j y]|] eqn:E.
  - apply list_find_Some in E as (Hj & -> & Hminj).
    destruct (decide (j = i)) as [->|Hne]; [done|].
    destruct (decide (j < i)%nat) as [Hlt|Hge].
    + by destruct (Hmin j m Hj Hlt).
    + destruct (Hminj i m Hi); [lia|done].
  - rewrite list_find_None, Forall_forall in E.
    destruct (E m); [by eapply list_elem_of_lookup_2|done].
Qed.

(** ** One request *)

Lemma handle_PUT_found movie_update mid s i m :
  MovieUpdate.validate movie_update = true → 0 < mid →
  scan mid (movie_db s) = Some (i, m) →
  let updated_movie :=
    MovieDB.mk mid (MovieUpdate.title movie_update)
      (MovieUpdate.playtime movie_update) (MovieUpdate.genre movie_update) in
  handle (PUT_movie mid movie_update) s =
    ({| movie_db := <[i := updated_movie]> (movie_db s);
        movie_id_counter := movie_id_counter s |}, OkMovie updated_movie).
Proof.
  intros Hv Hpos E. simpl. unfold Path_gt0, update_movie.
  by rewrite Hv, bool_decide_eq_true_2, E.
Qed.

Lemma handle_DELETE_found mid s i m :
  0 < mid → scan mid (movie_db s) = Some (i, m) →
  handle (DELETE_movie mid) s =
    ({| movie_db := delete i (movie_db s);
        movie_id_counter := movie_id_counter s |}, NoContent).
Proof.
  intros Hpos E. simpl. unfold Path_gt0, delete_movie.
  rewrite bool_decide_eq_true_2, E by done. simpl.
  by rewrite (list_remove_scan _ _ _ _ E).
Qed.

Lemma handle_GET_movie_state mid s : (handle (GET_movie mid) s).1 = s.
Proof.
  simpl. destruct (Path_gt0 mid); [|done].
  by destruct (get_movie_by_id mid s).
Qed.

(** ** The invariant *)

Lemma StronglySorted_delete {A} (R : relation A) (l : list A) i :
  StronglySorted R l → StronglySorted R (delete i l).
Proof.
  revert i. induction l as [|x l IH]; intros [|i] Hs; simpl; try done.
  - by apply StronglySorted_cons in Hs as [_ ?].
  - apply StronglySorted_cons in Hs as [Hx Hl].
    apply StronglySorted_cons. split; [by apply Forall_delete|by apply IH].
Qed.

Lemma ids_update db i m m' :
  db !! i = Some m → MovieDB.id m' = MovieDB.id m →
  ids (<[i := m']> db) = ids db.
Proof.
  intros Hi Hid. unfold ids. rewrite list_fmap_insert, Hid.
  apply list_insert_id. by rewrite list_lookup_fmap, Hi.
Qed.

Lemma store_inv_init : store_inv init.
Proof. repeat split; [constructor|constructor|done]. Qed.

Lemma store_inv_handle r s : store_inv s → store_inv (handle r s).1.
Proof.
  intros (Hsort & Hrange & Hc). destruct r as [movie|t g|mid|mid mu|mid].
  - simpl. destruct (Movie.validate movie); [|done]. simpl.
    unfold store_inv, ids. simpl. rewrite fmap_app. simpl.
    split_and!; [|apply Forall_app; split|lia].
    + apply StronglySorted_app_2; [|done|repeat constructor].
      intros x1 x2 H1 ->%list_elem_of_singleton.
      rewrite Forall_forall in Hrange. apply Hrange in H1. lia.
    + eapply Forall_impl; [done|]. simpl. lia.
    + repeat constructor; lia.
  - done.
  - by rewrite handle_GET_movie_state.
  - simpl. destruct (MovieUpdate.validate mu && Path_gt0 mid); [|done].
    unfold update_movie.
    destruct (scan mid (movie_db s)) as [[i m]|] eqn:E; [|done]. simpl.
    apply scan_Some in E as (Hi & Hid & _).
    unfold store_inv. simpl. by rewrite (ids_update _ _ m).
  - simpl. destruct (Path_gt0 mid); [|done]. unfold delete_movie.
    destruct (scan mid (movie_db s)) as [[i m]|] eqn:E; [|done]. simpl.
    rewrite (list_remove_scan _ _ _ _ E). unfold store_inv, ids. simpl.
    rewrite list_fmap_delete.
    split_and!; [by apply StronglySorted_delete|by apply Forall_delete|done].
Qed.

Lemma store_inv_exec rs s : store_inv s → store_inv (exec rs s).
Proof.
  revert s. induction rs as [|r rs IH]; intros s Hs; [done|].
  simpl. by apply IH, store_inv_handle.
Qed.

Lemma store_inv_reachable s : reachable s → store_inv s.
Proof. intros [rs <-]. apply store_inv_exec, store_inv_init. Qed.

Lemma store_inv_NoDup s : store_inv s → NoDup (ids (movie_db s)).
Proof.
  intros (Hsort & _). induction Hsort as [|x l Hs IH Hx]; constructor.
  - rewrite Forall_forall in Hx. intros Hin%Hx. lia.
  - done.
Qed.

Lemma store_inv_positive s m :
  store_inv s → m ∈ movie_db s → 0 < MovieDB.id m ≤ movie_id_counter s.
Proof.
  intros (_ & Hrange & _) Hin. rewrite Forall_forall in Hrange.
  apply Hrange. unfold ids. by apply list_elem_of_fmap_2.
Qed.

(** ** Creation order *)

(** What one request does to the counter and to the ids of the collection:
    a successful create issues the next id and appends it; every other
    request issues nothing and leaves a subsequence of the ids. *)
Lemma handle_step r s :
  (∃ m, (handle r s).2 = Created m
        ∧ MovieDB.id m = movie_id_counter s + 1
        ∧ movie_id_counter (handle r s).1 = movie_id_counter s + 1
        ∧ movie_db (handle r s).1 = movie_db s ++ [m])
  ∨ (created [(handle r s).2] = []
     ∧ movie_id_counter (handle r s).1 = movie_id_counter s
     ∧ ids (movie_db (handle r s).1) `sublist_of` ids (movie_db s)).
Proof.
  destruct r as [movie|t g|mid|mid mu|mid]; simpl.
  - destruct (Movie.validate movie); simpl; [left; eauto|by right].
  - by right.
  - right. destruct (Path_gt0 mid); [|done].
    by destruct (get_movie_by_id mid s) as [movie|[]].
  - right. destruct (MovieUpdate.validate mu && Path_gt0 mid); [|done].
    unfold update_movie.
    destruct (scan mid (movie_db s)) as [[i m]|] eqn:E; [|done]. simpl.
    apply scan_Some in E as (Hi & Hid & _).
    by rewrite (ids_update _ _ m).
  - right. destruct (Path_gt0 mid); [|done]. unfold delete_movie.
    destruct (scan mid (movie_db s)) as [[i m]|] eqn:E; [|done]. simpl.
    rewrite (list_remove_scan _ _ _ _ E). simpl. split_and!; [done..|].
    unfold ids. rewrite list_fmap_delete. apply sublist_delete.
Qed.

Lemma created_cons r tr : created (r :: tr) = created [r] ++ created tr.
Proof. by destruct r. Qed.

Lemma created_app tr1 tr2 : created (tr1 ++ tr2) = created tr1 ++ created tr2.
Proof. apply omap_app. Qed.

Lemma created_ids rs s :
  ids (created (trace rs s)) =
  seqZ (movie_id_counter s + 1) (Z.of_nat (length (created (trace rs s)))).
Proof.
  revert s. induction rs as [|r rs IH]; intros s; [done|].
  cbn [trace]. rewrite created_cons.
  destruct (handle_step r s) as [(m & -> & Hid & Hc & _)|(-> & Hc & _)].
  - simpl. rewrite seqZ_cons by lia. unfold ids in *. simpl.
    rewrite IH, Hc, Hid. do 3 f_equal. lia.
  - simpl. by rewrite IH, Hc.
Qed.

Lemma collection_ids_sublist rs s :
  ids (movie_db (exec rs s))
    `sublist_of` ids (movie_db s) ++ ids (created (trace rs s)).
Proof.
  revert s. induction rs as [|r rs IH]; intros s; cbn [trace exec].
  - simpl. by rewrite app_nil_r.
  - rewrite created_cons. etrans; [apply IH|]. unfold ids at 4.
    rewrite fmap_app, (assoc_L (++)). apply sublist_app; [|done].
    destruct (handle_step r s) as [(m & -> & _ & _ & ->)|(-> & _ & Hsub)].
    + unfold ids. by rewrite fmap_app.
    + simpl. by rewrite app_nil_r.
Qed.

Lemma StronglySorted_seqZ m n : StronglySorted Z.lt (seqZ m n).
Proof.
  destruct (decide (n ≤ 0)) as [Hn|Hn]; [rewrite seqZ_nil by done; constructor|].
  rewrite <-(Z2Nat.id n) by lia. generalize (Z.to_nat n) as k. clear.
  intros k. revert m. induction k as [|k IH]; intros m; [constructor|].
  rewrite seqZ_cons by lia. constructor.
  - replace (Z.pred (Z.of_nat (S k))) with (Z.of_nat k) by lia. apply IH.
  - apply Forall_seqZ. intros; lia.
Qed.

(** C1: in any run from the empty store, a successful create returns
    the id 1 + (number of successful creates answered before it), whatever
    other requests, successful or failed, come in between. *)
Theorem create_returns_next_id rs tr1 m tr2 :
  trace rs init = tr1 ++ Created m :: tr2 →
  MovieDB.id m = 1 + Z.of_nat (length (created tr1)).
Proof.
  intros Htr. pose proof (created_ids rs init) as Hids.
  rewrite Htr, created_app, (created_cons (Created m)) in Hids.
  unfold ids in Hids. rewrite fmap_app in Hids.
  assert (((MovieDB.id <$> created tr1) ++
           (MovieDB.id <$> created [Created m] ++ created tr2))
            !! length (created tr1) = Some (MovieDB.id m)) as Hl.
  { rewrite <-(length_fmap MovieDB.id). by apply list_lookup_middle. }
  rewrite Hids in Hl. apply lookup_seqZ in Hl as [-> _]. simpl. lia.
Qed.

(** C2: in every state reached from the empty store, the ids of the
    collection are pairwise distinct; the ids handed out by the creates of
    the run are strictly increasing in creation order, hence never handed
    out twice, deletions or not; and the collection is kept in insertion
    order: its ids, read in collection order, are a subsequence of the ids
    in the order they were created. *)
Theorem ids_distinct_increasing_never_reused rs :
  let s := exec rs init in
  let issued := ids (created (trace rs init)) in
  NoDup (ids (movie_db s))
  ∧ StronglySorted Z.lt issued
  ∧ NoDup issued
  ∧ StronglySorted Z.lt (ids (movie_db s))
  ∧ ids (movie_db s) `sublist_of` issued.
Proof.
  simpl. pose proof (store_inv_exec rs init store_inv_init) as Hinv.
  rewrite created_ids. split_and!.
  - by apply store_inv_NoDup.
  - apply StronglySorted_seqZ.
  - apply NoDup_seqZ.
  - apply Hinv.
  - rewrite <-created_ids. apply (collection_ids_sublist rs init).
Qed.

(** ** Listing *)

Lemma filter_true {A} (l : list A) : List.filter (λ _, true) l = l.
Proof. induction l as [|x l IH]; simpl; by rewrite ?IH. Qed.

Lemma filter_filter {A} (f g : A → bool) (l : list A) :
  List.filter g (List.filter f l) = List.filter (λ x, f x && g x) l.
Proof.
  induction l as [|x l IH]; [done|]. simpl.
  destruct (f x); simpl; [destruct (g x)|]; by rewrite IH.
Qed.

(** [get_movies] is one pass with both tests, and the whole collection when
    that pass keeps nothing. *)
Lemma get_movies_unfold title genre s :
  get_movies title genre s =
  match List.filter
          (λ m, applied title (MovieDB.title m)
                && applied genre (MovieDB.genre m)) (movie_db s) with
  | [] => movie_db s
  | l => l
  end.
Proof.
  unfold get_movies.
  destruct title as [[|c t]|], genre as [[|d g]|]; simpl;
    rewrite ?filter_true, ?filter_filter; try by destruct (movie_db s).
  all: try (erewrite List.filter_ext;
             [|intros m; simpl; by rewrite ?andb_true_r]);
    by destruct (List.filter _ (movie_db s)).
Qed.

Lemma applied_ci_substr q field :
  (q = Some [] → lower [] = []) →
  match q with Some q' => ci_substr q' field | None => true end
  = applied q field.
Proof.
  intros Hq. destruct q as [[|c q]|]; simpl; [|done..].
  unfold ci_substr. rewrite Hq by done. apply str_in_nil.
Qed.

Lemma applied_matches title genre m :
  (title = Some [] → lower [] = []) → (genre = Some [] → lower [] = []) →
  matches title genre m =
  applied title (MovieDB.title m) && applied genre (MovieDB.genre m).
Proof.
  intros Ht Hg. unfold matches.
  by rewrite (applied_ci_substr title), (applied_ci_substr genre).
Qed.

Lemma get_movies_matches title genre s :
  (title = Some [] → lower [] = []) → (genre = Some [] → lower [] = []) →
  get_movies title genre s =
  match List.filter (matches title genre) (movie_db s) with
  | [] => movie_db s
  | l => l
  end.
Proof.
  intros Ht Hg. rewrite get_movies_unfold.
  by rewrite (List.filter_ext _ _ (λ m, applied_matches title genre m Ht Hg)).
Qed.

(** C3: when the filters that are given, taken together, match no
    record, [get_movies] answers the whole collection. *)
Theorem list_falls_back_to_all title genre s :
  lower [] = [] →
  List.filter (matches title genre) (movie_db s) = [] →
  get_movies title genre s = movie_db s.
Proof.
  intros Hnil Hnone. rewrite get_movies_matches by done. by rewrite Hnone.
Qed.


(** C9: on a non-empty store [get_movies] never answers the empty
    list, whatever the filters; an empty answer means an empty store. *)
Theorem list_empty_only_on_empty_store title genre s :
  (movie_db s ≠ [] → get_movies title genre s ≠ [])
  ∧ (get_movies title genre s = [] → movie_db s = []).
Proof.
  assert (get_movies title genre s = [] → movie_db s = []) as H.
  { rewrite get_movies_unfold.
    by destruct (List.filter _ (movie_db s)). }
  split; [|done]. intros Hne Hnil. by apply Hne, H.
Qed.

(** ** Validation *)

Lemma Movie_validate_false movie :
  Movie.validate movie = false ↔
  Movie.playtime movie ≤ 0 ∨ Movie.title movie = []
  ∨ (length (Movie.genre movie) < 2)%nat.
Proof.
  unfold Movie.validate.
  rewrite !andb_false_iff, !bool_decide_eq_false.
  destruct (Movie.title movie); simpl; split; intros H; try lia.
  - destruct H as [[?|?]|?]; auto with lia.
  - destruct H as [?|[?|?]]; auto with lia; done.
Qed.

Lemma MovieUpdate_validate_true mu :
  0 < MovieUpdate.playtime mu → MovieUpdate.title mu ≠ [] →
  (2 ≤ length (MovieUpdate.genre mu))%nat →
  MovieUpdate.validate mu = true.
Proof.
  intros Hp Ht Hg. unfold MovieUpdate.validate.
  rewrite !andb_true_iff, !bool_decide_eq_true. split_and!; [|done..].
  destruct (MovieUpdate.title mu); simpl; [done|lia].
Qed.

(** C5: creating answers a validation error exactly when the playtime
    is not positive, the title is empty or the genre is shorter than two
    characters, and then the store is untouched; on any other input the
    answer is the new record, which carries the given title, playtime and
    genre and is the one record appended to the collection. *)
Theorem create_validates_then_appends movie s :
  ((handle (POST_movies movie) s).2 = ValidationError ↔
     Movie.playtime movie ≤ 0 ∨ Movie.title movie = []
     ∨ (length (Movie.genre movie) < 2)%nat)
  ∧ ((handle (POST_movies movie) s).2 = ValidationError →
     (handle (POST_movies movie) s).1 = s)
  ∧ (¬ (Movie.playtime movie ≤ 0 ∨ Movie.title movie = []
        ∨ (length (Movie.genre movie) < 2)%nat) →
     ∃ m, handle (POST_movies movie) s =
            ({| movie_db := movie_db s ++ [m];
                movie_id_counter := movie_id_counter s + 1 |}, Created m)
          ∧ MovieDB.title m = Movie.title movie
          ∧ MovieDB.playtime m = Movie.playtime movie
          ∧ MovieDB.genre m = Movie.genre movie).
Proof.
  rewrite <-Movie_validate_false. simpl.
  destruct (Movie.validate movie); simpl.
  - split_and!; [done|done|]. intros _. eauto.
  - split_and!; done.
Qed.

(** ** Absent and present ids *)

Lemma handle_absent s mid mu :
  (∀ m, m ∈ movie_db s → MovieDB.id m ≠ mid) →
  MovieUpdate.validate mu = true →
  let answer := if Path_gt0 mid then NotFoundError else ValidationError in
  handle (GET_movie mid) s = (s, answer)
  ∧ handle (PUT_movie mid mu) s = (s, answer)
  ∧ handle (DELETE_movie mid) s = (s, answer).
Proof.
  intros Habs%scan_None Hv. simpl.
  unfold get_movie_by_id, update_movie, delete_movie.
  rewrite Hv, Habs. simpl. by destruct (Path_gt0 mid).
Qed.

(** C6: for an id that no record of the collection holds, looking up,
    updating (with valid fields) and deleting each fail with NotFoundError,
    the 404 [HTTPException], and leave the collection and the counter
    exactly as they were.  The three handlers do so for every id; the
    routes answer it for every id that reaches the handlers, the positive
    ones. *)
Theorem absent_id_is_not_found s mid mu :
  (∀ m, m ∈ movie_db s → MovieDB.id m ≠ mid) →
  0 < MovieUpdate.playtime mu → MovieUpdate.title mu ≠ [] →
  (2 ≤ length (MovieUpdate.genre mu))%nat →
  (get_movie_by_id mid s = Raise HTTP_404_NOT_FOUND
   ∧ update_movie mu mid s = (s, Raise HTTP_404_NOT_FOUND)
   ∧ delete_movie mid s = (s, Raise HTTP_404_NOT_FOUND))
  ∧ (0 < mid →
     handle (GET_movie mid) s = (s, NotFoundError)
     ∧ handle (PUT_movie mid mu) s = (s, NotFoundError)
     ∧ handle (DELETE_movie mid) s = (s, NotFoundError)).
Proof.
  intros Habs Hp Ht Hg. split.
  - apply scan_None in Habs.
    unfold get_movie_by_id, update_movie, delete_movie. by rewrite Habs.
  - intros Hpos.
    pose proof (handle_absent s mid mu Habs
                  (MovieUpdate_validate_true mu Hp Ht Hg)) as H.
    cbv zeta in H. unfold Path_gt0 in H.
    by rewrite bool_decide_eq_true_2 in H.
Qed.

(** In a store that satisfies the invariant the scan for the id of a record
    of the collection stops at that very record. *)
Lemma scan_present s m :
  store_inv s → m ∈ movie_db s →
  ∃ i, scan (MovieDB.id m) (movie_db s) = Some (i, m).
Proof.
  intros Hinv Hin.
  destruct (scan_is_Some _ _ _ Hin eq_refl) as (i & m' & E).
  exists i. rewrite E. do 2 f_equal.
  apply scan_Some in E as (Hi & Hid & _).
  apply list_elem_of_lookup in Hin as [j Hj].
  assert (i = j) as ->; [|congruence].
  eapply NoDup_lookup; [by apply store_inv_NoDup|..];
    unfold ids; rewrite list_lookup_fmap.
  - by rewrite Hi.
  - by rewrite Hj, Hid.
Qed.

Lemma delete_absent s i m :
  store_inv s → movie_db s !! i = Some m →
  ∀ m', m' ∈ delete i (movie_db s) → MovieDB.id m' ≠ MovieDB.id m.
Proof.
  intros Hnd%store_inv_NoDup Hi m' Hin Heq. revert Hnd. unfold ids.
  rewrite <-(take_drop_middle _ _ _ Hi), fmap_app, fmap_cons.
  rewrite NoDup_app, NoDup_cons. intros (_ & Hl & Hr & _).
  rewrite delete_take_drop in Hin. apply elem_of_app in Hin as [Hin|Hin].
  - apply (Hl (MovieDB.id m)); [|left].
    rewrite <-Heq. by apply list_elem_of_fmap_2.
  - apply Hr. rewrite <-Heq. by apply list_elem_of_fmap_2.
Qed.

(** C7: in a store reached from the empty one that holds a record with
    the given id, an update whose fields pass validation answers the record
    made of that id and exactly the given title, playtime and genre, and
    puts it at the position of the old record; nothing else changes. *)
Theorem update_replaces_in_place s m mu :
  reachable s → m ∈ movie_db s →
  0 < MovieUpdate.playtime mu → MovieUpdate.title mu ≠ [] →
  (2 ≤ length (MovieUpdate.genre mu))%nat →
  let updated_movie :=
    MovieDB.mk (MovieDB.id m) (MovieUpdate.title mu)
      (MovieUpdate.playtime mu) (MovieUpdate.genre mu) in
  ∃ i, movie_db s !! i = Some m
       ∧ handle (PUT_movie (MovieDB.id m) mu) s =
           ({| movie_db := <[i := updated_movie]> (movie_db s);
               movie_id_counter := movie_id_counter s |},
            OkMovie updated_movie).
Proof.
  intros Hinv%store_inv_reachable Hin Hp Ht Hg.
  destruct (scan_present s m Hinv Hin) as [i E]. exists i. split.
  - by apply scan_Some in E as (? & _).
  - eapply handle_PUT_found; [by apply MovieUpdate_validate_true| |done].
    by apply (store_inv_positive s m).
Qed.

(** C8: in a store reached from the empty one that holds a record with
    the given id, deleting that id succeeds and removes that record and no
    other: the collection is one shorter, every other record is still in
    it, in its place, and looking the id up afterwards fails with
    NotFoundError. *)
Theorem delete_removes_exactly_one s m :
  reachable s → m ∈ movie_db s →
  ∃ i s',
    movie_db s !! i = Some m
    ∧ handle (DELETE_movie (MovieDB.id m)) s = (s', NoContent)
    ∧ movie_db s' = delete i (movie_db s)
    ∧ movie_id_counter s' = movie_id_counter s
    ∧ length (movie_db s) = S (length (movie_db s'))
    ∧ (∀ m', m' ∈ movie_db s → m' ≠ m → m' ∈ movie_db s')
    ∧ handle (GET_movie (MovieDB.id m)) s' = (s', NotFoundError).
Proof.
  intros Hinv%store_inv_reachable Hin.
  destruct (scan_present s m Hinv Hin) as [i E].
  pose proof (store_inv_positive s m Hinv Hin) as [Hpos _].
  pose proof E as (Hi & _)%scan_Some.
  eexists i, _. split_and!; [done|by eapply handle_DELETE_found|done..| | |].
  - simpl. rewrite length_delete by eauto.
    apply lookup_lt_Some in Hi. lia.
  - simpl. intros m' Hin' Hne.
    rewrite <-(take_drop_middle _ _ _ Hi) in Hin'.
    rewrite delete_take_drop, elem_of_app.
    apply elem_of_app in Hin' as [?|[?|?]%elem_of_cons]; auto. done.
  - simpl. unfold Path_gt0, get_movie_by_id. simpl.
    rewrite bool_decide_eq_true_2 by done.
    by rewrite (proj2 (scan_None _ _) (delete_absent s i m Hinv Hi)).
Qed.

(** ** What no request does *)

(** X1: [delete_movie] never raises the [ValueError] of [list.remove]: in
    every store, also one that holds equal records or an id twice, the
    record the scan stopped at is the one [remove] finds first.  The only
    exception it raises is the 404 [HTTPException]. *)
Theorem delete_movie_never_raises_ValueError mid s :
  (delete_movie mid s).2 ≠ Raise ValueError.
Proof.
  unfold delete_movie.
  destruct (scan mid (movie_db s)) as [[i m]|] eqn:E; [|done]. simpl.
  by rewrite (list_remove_scan _ _ _ _ E).
Qed.

(** X2: a request answered with an error, 404 or 422, has changed neither
    the collection nor the counter. *)
Theorem failed_request_changes_nothing r s :
  (handle r s).2 = NotFoundError ∨ (handle r s).2 = ValidationError →
  (handle r s).1 = s.
Proof.
  destruct r as [movie|t g|mid|mid mu|mid]; simpl.
  - destruct (Movie.validate movie); [|done]. by intros [|].
  - done.
  - intros _. apply handle_GET_movie_state.
  - destruct (MovieUpdate.validate mu && Path_gt0 mid); [|done].
    unfold update_movie.
    destruct (scan mid (movie_db s)) as [[i m]|]; [|done]. by intros [|].
  - destruct (Path_gt0 mid); [|done]. unfold delete_movie.
    destruct (scan mid (movie_db s)) as [[i m]|] eqn:E; [|done]. simpl.
    rewrite (list_remove_scan _ _ _ _ E). by intros [|].
Qed.

(** ** Counting *)

Lemma deleted_cons r tr : deleted (r :: tr) = deleted [r] ++ deleted tr.
Proof. by destruct r. Qed.

Lemma counter_exec rs s :
  movie_id_counter (exec rs s) =
  movie_id_counter s + Z.of_nat (length (created (trace rs s))).
Proof.
  revert s. induction rs as [|r rs IH]; intros s; cbn [trace exec].
  - simpl. lia.
  - rewrite created_cons, length_app, IH.
    destruct (handle_step r s) as [(m & -> & _ & -> & _)|(-> & -> & _)];
      simpl; lia.
Qed.

(** X3: after any run from the empty store the counter is the number of
    creates that succeeded in it. *)
Theorem counter_counts_successful_creates rs :
  movie_id_counter (exec rs init) =
  Z.of_nat (length (created (trace rs init))).
Proof. by rewrite counter_exec. Qed.

Lemma handle_length r s :
  (length (movie_db (handle r s).1) + length (deleted [(handle r s).2]))%nat
  = (length (movie_db s) + length (created [(handle r s).2]))%nat.
Proof.
  destruct r as [movie|t g|mid|mid mu|mid]; simpl.
  - destruct (Movie.validate movie); simpl; [|done].
    rewrite length_app. simpl. lia.
  - done.
  - destruct (Path_gt0 mid); [|done]. unfold get_movie_by_id.
    by destruct (scan mid (movie_db s)) as [[i m]|].
  - destruct (MovieUpdate.validate mu && Path_gt0 mid); [|done].
    unfold update_movie.
    destruct (scan mid (movie_db s)) as [[i m]|]; [|done]. simpl.
    by rewrite length_insert.
  - destruct (Path_gt0 mid); [|done]. unfold delete_movie.
    destruct (scan mid (movie_db s)) as [[i m]|] eqn:E; [|done]. simpl.
    rewrite (list_remove_scan _ _ _ _ E). simpl.
    apply scan_Some in E as (Hi & _).
    rewrite length_delete by eauto. apply lookup_lt_Some in Hi. lia.
Qed.

Lemma length_exec rs s :
  (length (movie_db (exec rs s)) + length (deleted (trace rs s)))%nat
  = (length (movie_db s) + length (created (trace rs s)))%nat.
Proof.
  revert s. induction rs as [|r rs IH]; intros s; cbn [trace exec].
  - simpl. lia.
  - rewrite created_cons, deleted_cons, !length_app.
    pose proof (IH (handle r s).1). pose proof (handle_length r s). lia.
Qed.

(** X4: after any run from the empty store the collection holds as many
    records as creates have succeeded less deletes have succeeded. *)
Theorem collection_size_is_creates_less_deletes rs :
  (length (movie_db (exec rs init)) + length (deleted (trace rs init)))%nat
  = length (created (trace rs init)).
Proof. by rewrite length_exec. Qed.

(** ** The records kept *)

Lemma Movie_validate_true movie :
  Movie.validate movie = true →
  Movie.title movie ≠ [] ∧ 0 < Movie.playtime movie
  ∧ (2 ≤ length (Movie.genre movie))%nat.
Proof.
  unfold Movie.validate. rewrite !andb_true_iff, !bool_decide_eq_true.
  intros [[Ht Hp] Hg]. split_and!; [|done..].
  intros E. rewrite E in Ht. simpl in Ht. lia.
Qed.

Lemma MovieUpdate_validate_inv mu :
  MovieUpdate.validate mu = true →
  MovieUpdate.title mu ≠ [] ∧ 0 < MovieUpdate.playtime mu
  ∧ (2 ≤ length (MovieUpdate.genre mu))%nat.
Proof.
  unfold MovieUpdate.validate. rewrite !andb_true_iff, !bool_decide_eq_true.
  intros [[Ht Hp] Hg]. split_and!; [|done..].
  intros E. rewrite E in Ht. simpl in Ht. lia.
Qed.

Lemma well_formed_handle r s :
  Forall well_formed (movie_db s) →
  Forall well_formed (movie_db (handle r s).1).
Proof.
  intros Hwf. destruct r as [movie|t g|mid|mid mu|mid].
  - simpl. destruct (Movie.validate movie) eqn:Hv; [|done]. simpl.
    apply Forall_app. split; [done|].
    repeat constructor; by apply Movie_validate_true.
  - done.
  - by rewrite handle_GET_movie_state.
  - simpl. destruct (MovieUpdate.validate mu) eqn:Hv; [|done].
    destruct (Path_gt0 mid); [|done]. simpl. unfold update_movie.
    destruct (scan mid (movie_db s)) as [[i m]|]; [|done]. simpl.
    apply Forall_insert; [done|].
    repeat constructor; by apply MovieUpdate_validate_inv.
  - simpl. destruct (Path_gt0 mid); [|done]. unfold delete_movie.
    destruct (scan mid (movie_db s)) as [[i m]|] eqn:E; [|done]. simpl.
    rewrite (list_remove_scan _ _ _ _ E). simpl. by apply Forall_delete.
Qed.

(** X5: every record of a collection reached from the empty store meets
    the constraints of the models: a non-empty title, a positive playtime
    and a genre of two characters or more. *)
Theorem kept_records_are_well_formed s m :
  reachable s → m ∈ movie_db s → well_formed m.
Proof.
  intros [rs <-]. revert m. apply Forall_forall.
  assert (∀ s, Forall well_formed (movie_db s) →
               Forall well_formed (movie_db (exec rs s))) as H.
  { induction rs as [|r rs IH]; intros s Hs; [done|].
    simpl. by apply IH, well_formed_handle. }
  apply H. constructor.
Qed.

(** X6: the ids of a collection reached from the empty store lie between 1
    and the counter, so that no record carries an id that is still to be
    issued. *)
Theorem kept_ids_are_issued_ids s m :
  reachable s → m ∈ movie_db s → 1 ≤ MovieDB.id m ≤ movie_id_counter s.
Proof.
  intros Hinv%store_inv_reachable Hin.
  pose proof (store_inv_positive s m Hinv Hin). lia.
Qed.

(** ** Reading back what was written *)

Lemma handle_PUT_inv mid mu s s' m' :
  handle (PUT_movie mid mu) s = (s', OkMovie m') →
  ∃ i m, MovieUpdate.validate mu = true ∧ 0 < mid
         ∧ scan mid (movie_db s) = Some (i, m)
         ∧ m' = MovieDB.mk mid (MovieUpdate.title mu)
                  (MovieUpdate.playtime mu) (MovieUpdate.genre mu)
         ∧ s' = {| movie_db := <[i := m']> (movie_db s);
                   movie_id_counter := movie_id_counter s |}.
Proof.
  simpl. destruct (MovieUpdate.validate mu); [|done]. simpl.
  unfold Path_gt0. case_bool_decide as Hpos; [|done]. unfold update_movie.
  destruct (scan mid (movie_db s)) as [[i m]|] eqn:E; [|done].
  intros [= <- <-]. by exists i, m.
Qed.

Lemma handle_DELETE_inv mid s s' :
  handle (DELETE_movie mid) s = (s', NoContent) →
  ∃ i m, 0 < mid ∧ scan mid (movie_db s) = Some (i, m)
         ∧ s' = {| movie_db := delete i (movie_db s);
                   movie_id_counter := movie_id_counter s |}.
Proof.
  simpl. unfold Path_gt0. case_bool_decide as Hpos; [|done].
  unfold delete_movie.
  destruct (scan mid (movie_db s)) as [[i m]|] eqn:E; [|done]. simpl.
  rewrite (list_remove_scan _ _ _ _ E). intros [= <-]. by exists i, m.
Qed.

Lemma scan_insert mid db i m m' :
  scan mid db = Some (i, m) → MovieDB.id m' = mid →
  scan mid (<[i := m']> db) = Some (i, m').
Proof.
  intros E Hid. apply scan_Some in E as (Hi & _ & Hmin).
  apply scan_Some. split_and!; [|done|].
  - apply list_lookup_insert_eq. by eapply lookup_lt_Some.
  - intros j y Hj Hlt. rewrite list_lookup_insert_ne in Hj by lia. eauto.
Qed.

Lemma handle_GET_found mid s i m :
  0 < mid → scan mid (movie_db s) = Some (i, m) →
  handle (GET_movie mid) s = (s, OkMovie m).
Proof.
  intros Hpos E. simpl. unfold Path_gt0, get_movie_by_id.
  by rewrite bool_decide_eq_true_2, E.
Qed.

(** X7: the record a successful update answers is the record a lookup of
    the same id answers right after it. *)
Theorem get_after_update mid mu s s' m' :
  handle (PUT_movie mid mu) s = (s', OkMovie m') →
  handle (GET_movie mid) s' = (s', OkMovie m').
Proof.
  intros (i & m & _ & Hpos & E & -> & ->)%handle_PUT_inv.
  eapply handle_GET_found; [done|]. simpl. by eapply scan_insert.
Qed.

(** X8: an update that succeeded can be sent again: the second one gives
    the same answer and leaves the store as the first one left it. *)
Theorem update_twice_is_update_once mid mu s s' m' :
  handle (PUT_movie mid mu) s = (s', OkMovie m') →
  handle (PUT_movie mid mu) s' = (s', OkMovie m').
Proof.
  intros (i & m & Hv & Hpos & E & -> & ->)%handle_PUT_inv.
  erewrite handle_PUT_found; [|done|done|by eapply scan_insert].
  simpl. by rewrite list_insert_insert_eq.
Qed.

(** X9: in a store reached from the empty one, the record a successful
    create answers is the record a lookup of its id answers right after. *)
Theorem get_after_create movie s s' m :
  reachable s →
  handle (POST_movies movie) s = (s', Created m) →
  handle (GET_movie (MovieDB.id m)) s' = (s', OkMovie m).
Proof.
  intros Hinv%store_inv_reachable. simpl.
  destruct (Movie.validate movie); [|done]. simpl. intros [= <- <-].
  destruct Hinv as (_ & Hrange & Hc). simpl.
  eapply (handle_GET_found _ _ (length (movie_db s))); [lia|].
  apply scan_Some. simpl. split_and!; [|done|].
  - by apply list_lookup_middle.
  - intros j y Hj Hlt. rewrite lookup_app_l in Hj by done.
    rewrite Forall_forall in Hrange.
    assert (MovieDB.id y ∈ ids (movie_db s)) as Hy%Hrange; [|lia].
    apply list_elem_of_fmap_2. by eapply list_elem_of_lookup_2.
Qed.

(** ** Other ids *)

Lemma scan_head j db :
  snd <$> scan j db = head (filter (λ m, MovieDB.id m = j) db).
Proof.
  unfold scan. induction db as [|x db IH]; [done|]. simpl.
  rewrite filter_cons. destruct (decide (MovieDB.id x = j)); [done|].
  rewrite <-IH. by destruct (list_find _ db) as [[??]|].
Qed.

(** The answer to a lookup is a function of the records that carry the id,
    in collection order. *)
Lemma GET_answer j s :
  (handle (GET_movie j) s).2 =
  if Path_gt0 j then
    match head (filter (λ m, MovieDB.id m = j) (movie_db s)) with
    | Some m => OkMovie m
    | None => NotFoundError
    end
  else ValidationError.
Proof.
  simpl. destruct (Path_gt0 j); [|done]. unfold get_movie_by_id.
  rewrite <-scan_head. by destruct (scan j (movie_db s)) as [[??]|].
Qed.

Lemma filter_insert_other (P : MovieDB.t → Prop) `{∀ x, Decision (P x)}
    (db : list MovieDB.t) i x y :
  db !! i = Some x → ¬ P x → ¬ P y →
  filter P (<[i := y]> db) = filter P db.
Proof.
  intros Hi Hx Hy. rewrite insert_take_drop by by eapply lookup_lt_Some.
  rewrite <-(take_drop_middle db i x Hi) at 3.
  by rewrite !filter_app, !filter_cons_False.
Qed.

Lemma filter_delete_other (P : MovieDB.t → Prop) `{∀ x, Decision (P x)}
    (db : list MovieDB.t) i x :
  db !! i = Some x → ¬ P x → filter P (delete i db) = filter P db.
Proof.
  intros Hi Hx. rewrite delete_take_drop.
  rewrite <-(take_drop_middle db i x Hi) at 3.
  by rewrite !filter_app, filter_cons_False.
Qed.

(** X10: a request about one id does not change what a lookup of another id
    answers: a create leaves every id but the one it issues alone, an update
    and a delete every id but their own. *)
Theorem other_ids_are_unaffected s j :
  (∀ movie, j ≠ movie_id_counter s + 1 →
     (handle (GET_movie j) (handle (POST_movies movie) s).1).2
     = (handle (GET_movie j) s).2)
  ∧ (∀ i mu, i ≠ j →
     (handle (GET_movie j) (handle (PUT_movie i mu) s).1).2
     = (handle (GET_movie j) s).2)
  ∧ (∀ i, i ≠ j →
     (handle (GET_movie j) (handle (DELETE_movie i) s).1).2
     = (handle (GET_movie j) s).2).
Proof.
  split_and!.
  - intros movie Hne. rewrite !GET_answer. simpl.
    destruct (Movie.validate movie); [|done]. simpl.
    by rewrite filter_app, filter_cons_False, filter_nil, app_nil_r.
  - intros i mu Hne. rewrite !GET_answer. simpl.
    destruct (MovieUpdate.validate mu && Path_gt0 i); [|done].
    unfold update_movie.
    destruct (scan i (movie_db s)) as [[k m]|] eqn:E; [|done]. simpl.
    apply scan_Some in E as (Hk & Hid & _).
    rewrite (filter_insert_other _ _ k m); [done..| |done].
    by rewrite Hid.
  - intros i Hne. rewrite !GET_answer. simpl.
    destruct (Path_gt0 i); [|done]. unfold delete_movie.
    destruct (scan i (movie_db s)) as [[k m]|] eqn:E; [|done]. simpl.
    rewrite (list_remove_scan _ _ _ _ E). simpl.
    apply scan_Some in E as (Hk & Hid & _).
    rewrite (filter_delete_other _ _ k m); [done..|]. by rewrite Hid.
Qed.

(** ** Deleted for good *)

Lemma absent_stays_absent rs s mid :
  mid ≤ movie_id_counter s → mid ∉ ids (movie_db s) →
  mid ∉ ids (movie_db (exec rs s)).
Proof.
  revert s. induction rs as [|r rs IH]; intros s Hle Habs; [done|].
  cbn [exec]. destruct (handle_step r s) as
    [(m & _ & Hid & Hc & Hdb)|(_ & Hc & Hsub)]; apply IH.
  - lia.
  - rewrite Hdb. unfold ids. rewrite fmap_app, elem_of_app. simpl.
    intros [?|Hin%list_elem_of_singleton]; [done|lia].
  - lia.
  - intros Hin. by eapply Habs, elem_of_sublist.
Qed.

(** X11: an id deleted from a store reached from the empty one is gone for
    good: whatever requests follow, creates included, a lookup of that id is
    answered NotFoundError. *)
Theorem deleted_id_never_comes_back s s' mid rs :
  reachable s →
  handle (DELETE_movie mid) s = (s', NoContent) →
  handle (GET_movie mid) (exec rs s') = (exec rs s', NotFoundError).
Proof.
  intros Hinv%store_inv_reachable (i & m & Hpos & E & ->)%handle_DELETE_inv.
  apply scan_Some in E as (Hi & Hid & _).
  assert (mid ∉ ids (movie_db (exec rs
            {| movie_db := delete i (movie_db s);
               movie_id_counter := movie_id_counter s |}))) as Habs.
  { apply absent_stays_absent; simpl.
    - rewrite <-Hid. eapply store_inv_positive; [done|].
      by eapply list_elem_of_lookup_2.
    - intros (m' & Hid' & Hin)%list_elem_of_fmap.
      eapply (delete_absent s i m); [done..|]. congruence. }
  simpl. unfold Path_gt0, get_movie_by_id.
  rewrite bool_decide_eq_true_2 by done.
  rewrite (proj2 (scan_None _ _)); [done|].
  intros m' Hin Hid'. apply Habs. rewrite <-Hid'.
  by apply list_elem_of_fmap_2.
Qed.

(** ** Lookup and listing *)

(** X12: a lookup answers a record exactly when the id is positive and the
    record is the first one of the collection, in collection order, that
    carries the id. *)
Theorem get_answers_first_record_with_id mid s m :
  handle (GET_movie mid) s = (s, OkMovie m) ↔
  0 < mid ∧ ∃ i, movie_db s !! i = Some m ∧ MovieDB.id m = mid
                 ∧ ∀ j y, movie_db s !! j = Some y → (j < i)%nat →
                          MovieDB.id y ≠ mid.
Proof.
  split.
  - simpl. unfold Path_gt0. case_bool_decide as Hpos; [|done].
    unfold get_movie_by_id.
    destruct (scan mid (movie_db s)) as [[i m']|] eqn:E; [|done].
    intros [= <-]. split; [done|]. exists i. by apply scan_Some.
  - intros (Hpos & i & H). eapply handle_GET_found; [done|].
    by apply scan_Some.
Qed.

Lemma List_filter_sublist {A} (f : A → bool) (l : list A) :
  List.filter f l `sublist_of` l.
Proof.
  induction l as [|x l IH]; simpl; [constructor|].
  destruct (f x); by constructor.
Qed.

(** X13: whatever the filters, the list answered is made of records of the
    collection, in collection order: a subsequence of it. *)
Theorem listed_records_are_kept_records title genre s :
  get_movies title genre s `sublist_of` movie_db s.
Proof.
  rewrite get_movies_unfold.
  destruct (List.filter _ (movie_db s)) eqn:E; [done|].
  rewrite <-E. apply List_filter_sublist.
Qed.

(** X14: a filter given as the empty string counts as a filter not given,
    on either parameter. *)
Theorem empty_filter_is_no_filter title genre s :
  get_movies (Some []) genre s = get_movies None genre s
  ∧ get_movies title (Some []) s = get_movies title None s.
Proof.
  split.
  - by destruct genre as [[|c g]|].
  - by destruct title as [[|c t]|].
Qed.

(** ** The two revisions *)

(** X15: the first revision answers a create as the second does exactly
    when the second accepts the body, since the first accepts every body;
    and it answers an update as the second does whenever the second accepts
    the body. *)
Theorem revisions_differ_by_validation_only movie mid mu s :
  (Rev1.handle_POST movie s = handle (POST_movies movie) s
   ↔ Movie.validate movie = true)
  ∧ (MovieUpdate.validate mu = true →
     Rev1.handle_PUT mid mu s = handle (PUT_movie mid mu) s).
Proof.
  split.
  - unfold Rev1.handle_POST. simpl.
    by destruct (Movie.validate movie).
  - intros Hv. unfold Rev1.handle_PUT, Rev1.MovieUpdate_validate. simpl.
    rewrite Hv. apply MovieUpdate_validate_inv in Hv as (_ & Hp & _).
    by rewrite bool_decide_eq_true_2.
Qed.

End Service.

(** ** The handlers at work *)

(** The worked example of the specification. *)
Example worked_example :
  trace lower_ascii
    [POST_movies dune; POST_movies up; GET_movies None (Some (u "zz"));
     GET_movie 2; DELETE_movie 1; GET_movie 1] init
  = [Created dune_1; Created up_2; OkMovies [dune_1; up_2];
     OkMovie up_2; NoContent; NotFoundError].
Proof. reflexivity. Qed.

Example two_films_reachable : reachable lower_ascii two_films.
Proof. by exists [POST_movies dune; POST_movies up]. Qed.

Example filter_ignores_case :
  get_movies lower_ascii (Some (u "DU")) (Some (u "sci")) two_films = [dune_1].
Proof. reflexivity. Qed.

Lemma create_returns_next_id_witness :
  trace lower_ascii
    [POST_movies dune; DELETE_movie 1; POST_movies (Movie.mk [] 0 []);
     POST_movies up] init
  = [Created dune_1; NoContent; ValidationError] ++ Created up_2 :: []
  ∧ MovieDB.id up_2 =
    1 + Z.of_nat (length (created [Created dune_1; NoContent; ValidationError])).
Proof.
  split; [reflexivity|].
  apply (create_returns_next_id lower_ascii
           [POST_movies dune; DELETE_movie 1; POST_movies (Movie.mk [] 0 []);
            POST_movies up]
           [Created dune_1; NoContent; ValidationError] up_2 []).
  reflexivity.
Defined.

Lemma list_falls_back_to_all_witness :
  lower_ascii [] = []
  ∧ List.filter (matches lower_ascii (Some (u "dune")) (Some (u "anim")))
      (movie_db two_films) = []
  ∧ get_movies lower_ascii (Some (u "dune")) (Some (u "anim")) two_films
    = movie_db two_films.
Proof.
  split; [reflexivity|]. split; [reflexivity|].
  apply (list_falls_back_to_all lower_ascii (Some (u "dune"))
           (Some (u "anim")) two_films); reflexivity.
Defined.


Lemma list_empty_only_on_empty_store_witness :
  get_movies lower_ascii (Some (u "zz")) None two_films ≠ [].
Proof.
  apply (proj1 (list_empty_only_on_empty_store lower_ascii
                  (Some (u "zz")) None two_films)).
  discriminate.
Defined.

Lemma create_validates_then_appends_witness :
  ∃ m, handle lower_ascii (POST_movies up)
         {| movie_db := [dune_1]; movie_id_counter := 1 |}
       = ({| movie_db := [dune_1] ++ [m]; movie_id_counter := 1 + 1 |},
          Created m)
       ∧ MovieDB.title m = u "Up" ∧ MovieDB.playtime m = 96
       ∧ MovieDB.genre m = u "Animation".
Proof.
  apply (proj2 (proj2 (create_validates_then_appends lower_ascii up
                         {| movie_db := [dune_1]; movie_id_counter := 1 |}))).
  simpl. intros [?|[?|?]]; [lia|done|lia].
Defined.

Lemma absent_id_is_not_found_witness :
  (get_movie_by_id 7 two_films = Raise HTTP_404_NOT_FOUND
   ∧ update_movie her 7 two_films = (two_films, Raise HTTP_404_NOT_FOUND)
   ∧ delete_movie 7 two_films = (two_films, Raise HTTP_404_NOT_FOUND))
  ∧ handle lower_ascii (GET_movie 7) two_films = (two_films, NotFoundError)
  ∧ handle lower_ascii (PUT_movie 7 her) two_films
    = (two_films, NotFoundError)
  ∧ handle lower_ascii (DELETE_movie 7) two_films = (two_films, NotFoundError).
Proof.
  assert (∀ m, m ∈ movie_db two_films → MovieDB.id m ≠ 7) as Habs.
  { intros m Hm. simpl in Hm.
    apply elem_of_cons in Hm as [->|Hm]; [done|].
    apply elem_of_cons in Hm as [->|Hm]; [done|].
    by apply elem_of_nil in Hm. }
  assert ((2 ≤ length (MovieUpdate.genre her))%nat) as Hg by (simpl; lia).
  split.
  - apply (absent_id_is_not_found lower_ascii two_films 7 her);
      [exact Habs|done|done|exact Hg].
  - apply (absent_id_is_not_found lower_ascii two_films 7 her);
      [exact Habs|done|done|exact Hg|done].
Defined.

Lemma update_replaces_in_place_witness :
  ∃ i, movie_db two_films !! i = Some dune_1
       ∧ handle lower_ascii
           (PUT_movie 1 (MovieUpdate.mk (u "Her") 126 (u "Drama"))) two_films
         = ({| movie_db :=
                 <[i := MovieDB.mk 1 (u "Her") 126 (u "Drama")]>
                   (movie_db two_films);
               movie_id_counter := 2 |},
            OkMovie (MovieDB.mk 1 (u "Her") 126 (u "Drama"))).
Proof.
  apply (update_replaces_in_place lower_ascii two_films dune_1
           (MovieUpdate.mk (u "Her") 126 (u "Drama"))).
  - by exists [POST_movies dune; POST_movies up].
  - simpl. left.
  - done.
  - done.
  - simpl. lia.
Defined.

Lemma delete_removes_exactly_one_witness :
  ∃ i s',
    movie_db two_films !! i = Some dune_1
    ∧ handle lower_ascii (DELETE_movie 1) two_films = (s', NoContent)
    ∧ movie_db s' = delete i (movie_db two_films)
    ∧ movie_id_counter s' = 2
    ∧ length (movie_db two_films) = S (length (movie_db s'))
    ∧ (∀ m', m' ∈ movie_db two_films → m' ≠ dune_1 → m' ∈ movie_db s')
    ∧ handle lower_ascii (GET_movie 1) s' = (s', NotFoundError).
Proof.
  apply (delete_removes_exactly_one lower_ascii two_films dune_1).
  - by exists [POST_movies dune; POST_movies up].
  - simpl. left.
Defined.

Lemma failed_request_changes_nothing_witness :
  (handle lower_ascii (DELETE_movie 7) two_films).1 = two_films.
Proof.
  apply (failed_request_changes_nothing lower_ascii (DELETE_movie 7) two_films).
  left. reflexivity.
Defined.

Lemma kept_records_are_well_formed_witness : well_formed up_2.
Proof.
  apply (kept_records_are_well_formed lower_ascii two_films up_2).
  - by exists [POST_movies dune; POST_movies up].
  - simpl. right. left.
Defined.

Lemma kept_ids_are_issued_ids_witness : 1 ≤ MovieDB.id up_2 ≤ 2.
Proof.
  apply (kept_ids_are_issued_ids lower_ascii two_films up_2).
  - by exists [POST_movies dune; POST_movies up].
  - simpl. right. left.
Defined.

Lemma get_after_update_witness :
  handle lower_ascii (GET_movie 1)
    {| movie_db := [her_1; up_2]; movie_id_counter := 2 |}
  = ({| movie_db := [her_1; up_2]; movie_id_counter := 2 |}, OkMovie her_1).
Proof.
  apply (get_after_update lower_ascii 1 her two_films). reflexivity.
Defined.

Lemma update_twice_is_update_once_witness :
  handle lower_ascii (PUT_movie 1 her)
    {| movie_db := [her_1; up_2]; movie_id_counter := 2 |}
  = ({| movie_db := [her_1; up_2]; movie_id_counter := 2 |}, OkMovie her_1).
Proof.
  apply (update_twice_is_update_once lower_ascii 1 her two_films). reflexivity.
Defined.

Lemma get_after_create_witness :
  handle lower_ascii (GET_movie (MovieDB.id up_2)) two_films
  = (two_films, OkMovie up_2).
Proof.
  apply (get_after_create lower_ascii up
           {| movie_db := [dune_1]; movie_id_counter := 1 |}).
  - by exists [POST_movies dune].
  - reflexivity.
Defined.

Lemma other_ids_are_unaffected_witness :
  (handle lower_ascii (GET_movie 2)
     (handle lower_ascii (DELETE_movie 1) two_films).1).2
  = (handle lower_ascii (GET_movie 2) two_films).2.
Proof.
  apply (proj2 (proj2 (other_ids_are_unaffected lower_ascii two_films 2)) 1).
  done.
Defined.

Lemma deleted_id_never_comes_back_witness :
  handle lower_ascii (GET_movie 1)
    (exec lower_ascii [POST_movies dune; PUT_movie 1 her]
       {| movie_db := [up_2]; movie_id_counter := 2 |})
  = (exec lower_ascii [POST_movies dune; PUT_movie 1 her]
       {| movie_db := [up_2]; movie_id_counter := 2 |}, NotFoundError).
Proof.
  apply (deleted_id_never_comes_back lower_ascii two_films).
  - by exists [POST_movies dune; POST_movies up].
  - reflexivity.
Defined.

Lemma revisions_differ_by_validation_only_witness :
  Rev1.handle_PUT 1 her two_films = handle lower_ascii (PUT_movie 1 her) two_films.
Proof.
  apply (proj2 (revisions_differ_by_validation_only lower_ascii dune 1 her
                  two_films)).
  reflexivity.
Defined.
